(** * Qualifier/column extraction over a parsed SQL tree ([column.py])

    A shallow embedding of [parse_query] from [src/column.py] and the
    properties of the mapping it returns.  The SQL parser ([sqlglot]) is an
    external collaborator: only the part of its interface that the function
    reads is modelled (node classes, the [alias], [name], [table] and
    [alias_or_name] properties, and [find_all]). *)

From Stdlib Require Import String Ascii Bool Arith NArith List Sorted.
Import ListNotations.
Local Open Scope string_scope.
Local Open Scope list_scope.

(** ** The parser's syntax tree, as far as [parse_query] looks at it *)

Module Sqlglot.

(** The node classes the function asks for, and everything else. *)
Inductive class := CTE | Table | Subquery | Column | Other.

Definition class_eqb (a b : class) : bool :=
  match a, b with
  | CTE, CTE | Table, Table | Subquery, Subquery
  | Column, Column | Other, Other => true
  | _, _ => false
  end.

(** The string properties of a node.  As in sqlglot, a property that is
    absent reads as the empty string. *)
Record props := Props {
  cls : class;
  alias_ : string;
  name_ : string;
  table_ : string
}.

#[warnings="-register-all"]
Inductive Expression := Expr (p : props) (args : list Expression).

Definition props_of (e : Expression) : props :=
  match e with Expr p _ => p end.

Definition alias (e : Expression) : string := alias_ (props_of e).
Definition name (e : Expression) : string := name_ (props_of e).
Definition table (e : Expression) : string := table_ (props_of e).

(** Python truthiness of a [str]. *)
Definition truthy (s : string) : bool := negb (s =? "").

(** [x or y] on strings. *)
Definition or_else (x y : string) : string := if truthy x then x else y.

Definition alias_or_name (e : Expression) : string :=
  or_else (alias e) (name e).

(** [walk(bfs=True)]: the nodes level by level, each level left to
    right.  The levels of a node are its own singleton level followed by
    the levelwise concatenation of its children's levels. *)
Fixpoint zip_levels (a b : list (list Expression)) : list (list Expression) :=
  match a, b with
  | [], _ => b
  | _, [] => a
  | x :: a', y :: b' => (x ++ y) :: zip_levels a' b'
  end.

Fixpoint levels (e : Expression) : list (list Expression) :=
  match e with
  | Expr _ args =>
      [e] :: fold_right (fun c acc => zip_levels (levels c) acc) [] args
  end.

Definition walk (e : Expression) : list Expression := concat (levels e).

Definition isinstance (k : class) (e : Expression) : bool :=
  class_eqb (cls (props_of e)) k.

Definition find_all (k : class) (e : Expression) : list Expression :=
  filter (isinstance k) (walk e).

End Sqlglot.

Import Sqlglot.

(** ** Python values used by the function *)

(** [set(xs)] iterates in an order fixed by string hashing, which the
    program cannot rely on.  An iteration order is any function listing each
    element of its argument exactly once. *)
Record SetOrder := {
  iter : list string -> list string;
  iter_NoDup : forall l, NoDup (iter l);
  iter_In : forall l x, In x (iter l) <-> In x l
}.

(** [sorted] on strings, by insertion. *)
Fixpoint insert_sorted (x : string) (l : list string) : list string :=
  match l with
  | [] => [x]
  | y :: l' => if (x <=? y)%string then x :: l else y :: insert_sorted x l'
  end.

Definition sorted (l : list string) : list string :=
  fold_right insert_sorted [] l.

(** One value of [info]: [{"table_name": ..., "columns": [...]}]. *)
Record entry := Entry {
  table_name : string;
  columns : list string
}.

(** [info]: a [dict], which keeps its keys in insertion order. *)
Definition dict := list (string * entry).

Definition keys (d : dict) : list string := map fst d.

Fixpoint getitem (k : string) (d : dict) : option entry :=
  match d with
  | [] => None
  | (k', v) :: d' => if k' =? k then Some v else getitem k d'
  end.

(** [k in d] *)
Definition contains (k : string) (d : dict) : bool :=
  match getitem k d with Some _ => true | None => false end.

(** [d[k] = v]: an existing key keeps its position, a new one goes last. *)
Fixpoint setitem (k : string) (v : entry) (d : dict) : dict :=
  match d with
  | [] => [(k, v)]
  | (k', v') :: d' =>
      if k' =? k then (k, v) :: d' else (k', v') :: setitem k v d'
  end.

(** [d[k]["columns"]], read through a reference to the entry. *)
Definition columns_of (k : string) (d : dict) : list string :=
  match getitem k d with Some e => columns e | None => [] end.

(** In-place update of the column list of the entry stored under [k]. *)
Fixpoint alter_columns (f : list string -> list string) (k : string) (d : dict)
  : dict :=
  match d with
  | [] => []
  | (k', v) :: d' =>
      if k' =? k
      then (k', Entry (table_name v) (f (columns v))) :: d'
      else (k', v) :: alter_columns f k d'
  end.

Definition last_key (d : dict) : option string :=
  last (map Some (keys d)) None.

(** ** [parse_query] *)

Inductive exn := UnboundLocalError.

Inductive result (A : Type) :=
| Return (a : A)
| Raise (e : exn).
Arguments Return {A} a.
Arguments Raise {A} e.

(** The objects a call works on: the parsed tree, the dictionary [info]
    and the loop variable [alias_data], a reference to one entry of [info]
    (named by its key) that stays bound after its loop. *)
Record store := Store {
  parsed : Expression;
  info : dict;
  alias_data : option string
}.

Definition with_info (f : dict -> dict) (s : store) : store :=
  Store (parsed s) (f (info s)) (alias_data s).

Section ParseQuery.

Variable ord : SetOrder.

(** Loop bodies of steps 1 to 4. *)
Definition collect_cte (d : dict) (cte_expr : Expression) : dict :=
  let cte_alias := alias cte_expr in
  setitem cte_alias (Entry "CTE" []) d.

Definition collect_table (d : dict) (table_expr : Expression) : dict :=
  let a := or_else (alias table_expr) (name table_expr) in
  setitem a (Entry (name table_expr) []) d.

Definition collect_subquery (d : dict) (subq_expr : Expression) : dict :=
  let subq_alias := alias subq_expr in
  if truthy subq_alias then setitem subq_alias (Entry "Subquery" []) d
  else d.

Definition collect_column (d : dict) (col_expr : Expression) : dict :=
  if truthy (table col_expr) then
    let a := table col_expr in
    let d' := if contains a d then d else setitem a (Entry a []) d in
    alter_columns (fun cs => cs ++ [name col_expr]) a d'
  else d.

Definition step1 (s : store) : store :=
  with_info (fun d => fold_left collect_cte (find_all CTE (parsed s)) d) s.

Definition step2 (s : store) : store :=
  with_info (fun d => fold_left collect_table (find_all Table (parsed s)) d) s.

Definition step3 (s : store) : store :=
  with_info
    (fun d => fold_left collect_subquery (find_all Subquery (parsed s)) d) s.

Definition step4 (s : store) : store :=
  with_info
    (fun d => fold_left collect_column (find_all Column (parsed s)) d) s.

(** Step 5, the loop: every value gets its columns replaced by
    [sorted(set(columns))]; [alias_data] ends bound to the last value, or
    stays as it was when [info] is empty. *)
Definition sorted_set (cs : list string) : list string :=
  sorted (iter ord cs).

Definition normalize (d : dict) : dict :=
  map (fun kv => (fst kv, Entry (table_name (snd kv))
                                (sorted_set (columns (snd kv))))) d.

Definition step5_loop (s : store) : store :=
  Store (parsed s) (normalize (info s))
        (match last_key (info s) with
         | Some k => Some k
         | None => alias_data s
         end).

(** The list comprehension of the fallback. *)
Definition all_columns (t : Expression) : list string :=
  map alias_or_name (find_all Column t).

(** Step 5, the [if] after the loop, and the [return]. *)
Definition step5_fallback (s : store) : store * result dict :=
  match alias_data s with
  | None => (s, Raise UnboundLocalError)
  | Some k =>
      if Nat.eqb (length (columns_of k (info s))) 0
      then
        let s' :=
          with_info (alter_columns (fun _ => all_columns (parsed s)) k) s in
        (s', Return (info s'))
      else (s, Return (info s))
  end.

(** Entering the function: [parsed] is the tree, [info = {}], and
    [alias_data] is not bound yet. *)
Definition enter (t : Expression) : store := Store t [] None.

Definition registered (t : Expression) : dict :=
  info (step3 (step2 (step1 (enter t)))).

Definition attributed (t : Expression) : dict :=
  info (step4 (step3 (step2 (step1 (enter t))))).

Definition run (t : Expression) : store * result dict :=
  step5_fallback (step5_loop (step4 (step3 (step2 (step1 (enter t)))))).

Definition parse_query (t : Expression) : result dict := snd (run t).

(** Whether the condition of the final [if] holds. *)
Definition fallback_fires (t : Expression) : bool :=
  let s := step5_loop (step4 (step3 (step2 (step1 (enter t))))) in
  match alias_data s with
  | Some k => Nat.eqb (length (columns_of k (info s))) 0
  | None => false
  end.

End ParseQuery.

(** An iteration order to compute with: first occurrences, left to right. *)
Fixpoint first_seen (l : list string) : list string :=
  match l with
  | [] => []
  | x :: r => x :: filter (fun y => negb (y =? x)) (first_seen r)
  end.

(** ** What the tree declares, in the order the function meets it *)

(** The effective qualifier of a table reference: [alias or name]. *)
Definition qualifier (e : Expression) : string := or_else (alias e) (name e).

Definition cte_names (t : Expression) : list string :=
  map alias (find_all CTE t).

Definition table_qualifiers (t : Expression) : list string :=
  map qualifier (find_all Table t).

Definition subquery_aliases (t : Expression) : list string :=
  filter truthy (map alias (find_all Subquery t)).

Definition column_qualifiers (t : Expression) : list string :=
  filter truthy (map table (find_all Column t)).

Definition declared (t : Expression) : list string :=
  cte_names t ++ table_qualifiers t ++ subquery_aliases t.

(** The writes of steps 1 to 3 as (key, table_name) pairs. *)
Definition registrations (t : Expression) : list (string * string) :=
  map (fun e => (alias e, "CTE")) (find_all CTE t)
  ++ map (fun e => (qualifier e, name e)) (find_all Table t)
  ++ map (fun e => (alias e, "Subquery"))
         (filter (fun e => truthy (alias e)) (find_all Subquery t)).

(** The appends of step 4 as (qualifier, column name) pairs. *)
Definition attributions (t : Expression) : list (string * string) :=
  map (fun e => (table e, name e))
      (filter (fun e => truthy (table e)) (find_all Column t)).

Definition register (d : dict) (kv : string * string) : dict :=
  setitem (fst kv) (Entry (snd kv) []) d.

Definition attribute (d : dict) (qc : string * string) : dict :=
  let d' := if contains (fst qc) d then d
            else setitem (fst qc) (Entry (fst qc) []) d in
  alter_columns (fun cs => cs ++ [snd qc]) (fst qc) d'.

(** The table_name written last under key [q], if any was. *)
Fixpoint last_registered (q : string) (regs : list (string * string))
  : option string :=
  match regs with
  | [] => None
  | (k, n) :: r =>
      match last_registered q r with
      | Some m => Some m
      | None => if k =? q then Some n else None
      end
  end.

(** The column names appended under qualifier [q], in order. *)
Definition attributed_to (q : string) (evs : list (string * string))
  : list string :=
  map snd (filter (fun ev => fst ev =? q) evs).

Definition mem (k : string) (ks : list string) : bool :=
  existsb (String.eqb k) ks.

Definition add_key (ks : list string) (k : string) : list string :=
  if mem k ks then ks else ks ++ [k].

(** ** Sample trees *)

Definition leaf (k : class) (a n tb : string) : Expression :=
  Expr (Props k a n tb) [].

Definition identifier (n : string) : Expression := leaf Other "" n "".

Definition column (tb n : string) : Expression :=
  Expr (Props Column "" n tb)
       (identifier n :: if truthy tb then [identifier tb] else []).

Definition table_ref (n a : string) : Expression :=
  Expr (Props Table a n "")
       (identifier n :: if truthy a then [identifier a] else []).

Definition other (args : list Expression) : Expression :=
  Expr (Props Other "" "" "") args.

(** [SELECT 1] *)
Definition select_1 : Expression := other [leaf Other "" "1" ""].

(** [SELECT column1, column2 FROM table1 UNION
     SELECT column1, column2 FROM table2] *)
Definition union_query : Expression :=
  other [ other [column "" "column1"; column "" "column2";
                 other [table_ref "table1" ""]];
          other [column "" "column1"; column "" "column2";
                 other [table_ref "table2" ""]] ].

(** What the reference run prints for it. *)
Definition union_result : dict :=
  [ ("table1", Entry "table1" []);
    ("table2", Entry "table2" ["column1"; "column2"; "column1"; "column2"]) ].

(** [SELECT a.column1, b.column2 FROM table1 a INNER JOIN table2 b
     ON a.common_column = b.common_column] *)
Definition join_query : Expression :=
  other [ column "a" "column1"; column "b" "column2";
          other [table_ref "table1" "a"];
          other [table_ref "table2" "b";
                 other [column "a" "common_column";
                        column "b" "common_column"]] ].

(** [SELECT o.col FROM t]: the qualifier [o] is declared nowhere. *)
Definition unknown_query : Expression :=
  other [ column "o" "col"; other [table_ref "t" ""] ].

(** [WITH x AS (SELECT 1 AS a) SELECT x.a FROM x] *)
Definition cte_query : Expression :=
  other [ other [ Expr (Props CTE "x" "" "")
                       [other [leaf Other "a" "1" ""]; identifier "x"] ];
          column "x" "a";
          other [table_ref "x" ""] ].

(** [WITH x AS (SELECT 1 AS a)
     SELECT y.a, o.b, s.c FROM t AS y, x, (SELECT 2 AS c) AS s]:
    the table reference [x] overwrites the CTE entry after [y] is
    registered, and [o] is declared nowhere. *)
Definition mixed_query : Expression :=
  other [ other [ Expr (Props CTE "x" "" "")
                       [other [leaf Other "a" "1" ""]; identifier "x"] ];
          column "y" "a"; column "o" "b"; column "s" "c";
          other [table_ref "t" "y"];
          other [table_ref "x" ""];
          other [ Expr (Props Subquery "s" "" "")
                       [other [leaf Other "c" "2" ""]; identifier "s"] ] ].

Definition mixed_result : dict :=
  [ ("x", Entry "x" []);
    ("y", Entry "t" ["a"]);
    ("s", Entry "Subquery" ["c"]);
    ("o", Entry "o" ["b"]) ].

(** [WITH CTE AS (SELECT 1 AS a) SELECT CTE.a FROM CTE]: a CTE that is
    itself named CTE. *)
Definition cte_named_query : Expression :=
  other [ other [ Expr (Props CTE "CTE" "" "")
                       [other [leaf Other "a" "1" ""]; identifier "CTE"] ];
          column "CTE" "a";
          other [table_ref "CTE" ""] ].

(** [WITH x AS (SELECT 1 AS a) SELECT y.a FROM x AS y] *)
Definition aliased_cte_query : Expression :=
  other [ other [ Expr (Props CTE "x" "" "")
                       [other [leaf Other "a" "1" ""]; identifier "x"] ];
          column "y" "a";
          other [table_ref "x" "y"] ].

(** [WITH x AS (SELECT 1 AS a) SELECT x.a FROM x, (SELECT 2 AS a) AS x] *)
Definition shadowed_query : Expression :=
  other [ other [ Expr (Props CTE "x" "" "")
                       [other [leaf Other "a" "1" ""]; identifier "x"] ];
          column "x" "a";
          other [table_ref "x" ""];
          other [ Expr (Props Subquery "x" "" "")
                       [other [leaf Other "a" "2" ""]; identifier "x"] ] ].

(** What step 5 leaves in the entry under [q], given its state [e] after
    step 4 and the key [k] that [alias_data] refers to. *)
Definition final_entry (ord : SetOrder) (t : Expression) (k q : string)
  (e : entry) : entry :=
  let cs := sorted_set ord (columns e) in
  Entry (table_name e)
        (if (k =? q) && Nat.eqb (length cs) 0 then all_columns t else cs).

(** ** The order on strings and the sorted list of a set *)

Module StrOrder.

Definition lt (a b : string) : Prop := (a ?= b)%string = Lt.
Definition le (a b : string) : Prop := (a <=? b)%string = true.

Lemma ascii_compare_refl (a : ascii) : Ascii.compare a a = Eq.
Proof. unfold Ascii.compare. apply N.compare_refl. Qed.

Lemma ascii_lt_trans (a b c : ascii) :
  Ascii.compare a b = Lt -> Ascii.compare b c = Lt -> Ascii.compare a c = Lt.
Proof.
  unfold Ascii.compare. rewrite !N.compare_lt_iff. apply N.lt_trans.
Qed.

Lemma compare_refl (s : string) : (s ?= s)%string = Eq.
Proof.
  induction s as [|a s IH]; simpl; [reflexivity|].
  now rewrite ascii_compare_refl.
Qed.

Lemma lt_irrefl (s : string) : ~ lt s s.
Proof. unfold lt. rewrite compare_refl. discriminate. Qed.

Lemma lt_trans (a b c : string) : lt a b -> lt b c -> lt a c.
Proof.
  unfold lt. revert b c.
  induction a as [|x a IH]; intros [|y b] [|z c]; simpl; try congruence.
  destruct (Ascii.compare x y) eqn:Exy; try discriminate;
    destruct (Ascii.compare y z) eqn:Eyz; try discriminate; intros Hab Hbc.
  - apply Ascii.compare_eq_iff in Exy, Eyz. subst.
    rewrite ascii_compare_refl. eauto.
  - apply Ascii.compare_eq_iff in Exy. subst. now rewrite Eyz.
  - apply Ascii.compare_eq_iff in Eyz. subst. now rewrite Exy.
  - now rewrite (ascii_lt_trans _ _ _ Exy Eyz).
Qed.

Lemma lt_le (a b : string) : lt a b -> le a b.
Proof. unfold lt, le, String.leb. now intros ->. Qed.

Lemma le_neq_lt (a b : string) : le a b -> a <> b -> lt a b.
Proof.
  unfold lt, le, String.leb. intros Hle Hne.
  destruct (a ?= b)%string eqn:E; try discriminate; [|reflexivity].
  now apply String.compare_eq_iff in E.
Qed.

Lemma not_le_lt (a b : string) : (a <=? b)%string = false -> lt b a.
Proof.
  unfold lt, String.leb. rewrite (String.compare_antisym b a).
  now destruct (a ?= b)%string.
Qed.

End StrOrder.

Section Sorting.

Lemma insert_sorted_In (x : string) (l : list string) (z : string) :
  In z (insert_sorted x l) <-> z = x \/ In z l.
Proof.
  induction l as [|y l IH]; simpl.
  - intuition.
  - destruct (x <=? y)%string; simpl; rewrite ?IH; intuition.
Qed.

Lemma sorted_In (l : list string) (z : string) : In z (sorted l) <-> In z l.
Proof.
  induction l as [|x l IH]; simpl; [tauto|].
  rewrite insert_sorted_In, IH. intuition.
Qed.

Lemma insert_sorted_strict (x : string) (l : list string) :
  StronglySorted StrOrder.lt l -> ~ In x l ->
  StronglySorted StrOrder.lt (insert_sorted x l).
Proof.
  induction l as [|y l IH]; simpl; intros Hs Hx.
  - repeat constructor.
  - apply StronglySorted_inv in Hs as [Hs Hy].
    destruct (x <=? y)%string eqn:E.
    + assert (Hxy : StrOrder.lt x y).
      { apply StrOrder.le_neq_lt; [exact E|]. intros ->. apply Hx. now left. }
      constructor; [now constructor|].
      constructor; [exact Hxy|].
      eapply Forall_impl; [|exact Hy].
      intros z Hz. eapply StrOrder.lt_trans; eassumption.
    + constructor.
      * apply IH; [exact Hs|]. intros Hin. apply Hx. now right.
      * apply Forall_forall. intros z Hz.
        apply insert_sorted_In in Hz as [->|Hz].
        -- now apply StrOrder.not_le_lt.
        -- rewrite Forall_forall in Hy. now apply Hy.
Qed.

Lemma sorted_strict (l : list string) :
  NoDup l -> StronglySorted StrOrder.lt (sorted l).
Proof.
  induction 1 as [|x l Hx Hl IH]; simpl; [constructor|].
  apply insert_sorted_strict; [exact IH|]. now rewrite sorted_In.
Qed.

(** A strictly increasing list is determined by its elements. *)
Lemma strict_unique (l1 l2 : list string) :
  StronglySorted StrOrder.lt l1 -> StronglySorted StrOrder.lt l2 ->
  (forall x, In x l1 <-> In x l2) -> l1 = l2.
Proof.
  revert l2. induction l1 as [|a l1 IH]; intros [|b l2] H1 H2 Hin.
  - reflexivity.
  - exfalso. apply (proj2 (Hin b)). now left.
  - exfalso. apply (proj1 (Hin a)). now left.
  - apply StronglySorted_inv in H1 as [H1 Ha].
    apply StronglySorted_inv in H2 as [H2 Hb].
    rewrite Forall_forall in Ha, Hb.
    assert (a = b) as ->.
    { destruct (proj1 (Hin a) (or_introl eq_refl)) as [E|Hab]; [now subst|].
      destruct (proj2 (Hin b) (or_introl eq_refl)) as [E|Hba]; [exact E|].
      exfalso. apply (StrOrder.lt_irrefl a).
      eapply StrOrder.lt_trans; [apply Ha, Hba | apply Hb, Hab]. }
    f_equal. apply IH; [exact H1 | exact H2 |].
    intros x. split; intros Hx.
    + destruct (proj1 (Hin x) (or_intror Hx)) as [E|Hx']; [|exact Hx'].
      subst. exfalso. exact (StrOrder.lt_irrefl _ (Ha _ Hx)).
    + destruct (proj2 (Hin x) (or_intror Hx)) as [E|Hx']; [|exact Hx'].
      subst. exfalso. exact (StrOrder.lt_irrefl _ (Hb _ Hx)).
Qed.

Lemma strict_NoDup (l : list string) :
  StronglySorted StrOrder.lt l -> NoDup l.
Proof.
  induction 1 as [|a l Hs IH Ha]; constructor; [|exact IH].
  intros Hin. rewrite Forall_forall in Ha.
  exact (StrOrder.lt_irrefl _ (Ha _ Hin)).
Qed.

Lemma strict_le (l : list string) :
  StronglySorted StrOrder.lt l -> StronglySorted StrOrder.le l.
Proof.
  induction 1 as [|a l Hs IH Ha]; constructor; [exact IH|].
  eapply Forall_impl; [|exact Ha]. intros z. apply StrOrder.lt_le.
Qed.

Variable ord : SetOrder.

Lemma sorted_set_strict (cs : list string) :
  StronglySorted StrOrder.lt (sorted_set ord cs).
Proof. apply sorted_strict, iter_NoDup. Qed.

Lemma sorted_set_In (cs : list string) (z : string) :
  In z (sorted_set ord cs) <-> In z cs.
Proof. unfold sorted_set. now rewrite sorted_In, iter_In. Qed.

Lemma sorted_set_nil : sorted_set ord [] = [].
Proof.
  destruct (sorted_set ord []) as [|x l] eqn:E; [reflexivity|].
  exfalso. apply (proj1 (sorted_set_In [] x)). rewrite E. now left.
Qed.

Lemma sorted_set_nil_iff (cs : list string) :
  sorted_set ord cs = [] <-> cs = [].
Proof.
  split; [|intros ->; apply sorted_set_nil].
  destruct cs as [|c cs]; [reflexivity|]. intros E. exfalso.
  apply (@in_nil _ c). rewrite <- E. apply sorted_set_In. now left.
Qed.

End Sorting.

(** The sorted list of a set does not depend on the iteration order. *)
Lemma sorted_set_order_irrelevant (ord1 ord2 : SetOrder) (cs : list string) :
  sorted_set ord1 cs = sorted_set ord2 cs.
Proof.
  apply strict_unique; try apply sorted_set_strict.
  intros x. now rewrite !sorted_set_In.
Qed.

(** [first_seen] is an iteration order. *)
Lemma first_seen_In (l : list string) (x : string) :
  In x (first_seen l) <-> In x l.
Proof.
  induction l as [|y l IH]; simpl; [tauto|].
  rewrite filter_In, IH, negb_true_iff, String.eqb_neq.
  destruct (String.eqb_spec x y); intuition.
Qed.

Lemma first_seen_NoDup (l : list string) : NoDup (first_seen l).
Proof.
  induction l as [|y l IH]; simpl; constructor.
  - rewrite filter_In, String.eqb_refl. simpl. intros [_ E]. discriminate.
  - now apply NoDup_filter.
Qed.

Definition insertion_order : SetOrder :=
  {| iter := first_seen;
     iter_NoDup := first_seen_NoDup;
     iter_In := first_seen_In |}.

(** ** Dictionary lemmas *)

Section Dict.

Implicit Types (d : dict) (k q : string) (v : entry).

Lemma getitem_setitem k v d q :
  getitem q (setitem k v d) = if k =? q then Some v else getitem q d.
Proof.
  induction d as [|[k' v'] d IH]; simpl.
  - reflexivity.
  - destruct (String.eqb_spec k' k) as [->|Hne]; simpl.
    + destruct (k =? q); reflexivity.
    + rewrite IH. destruct (String.eqb_spec k' q) as [->|]; [|reflexivity].
      now rewrite (proj2 (String.eqb_neq k q)) by congruence.
Qed.

Lemma getitem_alter f k d q :
  getitem q (alter_columns f k d) =
  if k =? q
  then option_map (fun e => Entry (table_name e) (f (columns e))) (getitem k d)
  else getitem q d.
Proof.
  induction d as [|[k' v'] d IH]; simpl.
  - now destruct (k =? q).
  - destruct (String.eqb_spec k' k) as [->|Hne]; simpl.
    + destruct (k =? q); reflexivity.
    + rewrite IH. destruct (String.eqb_spec k' q) as [->|]; [|reflexivity].
      now rewrite (proj2 (String.eqb_neq k q)) by congruence.
Qed.

Lemma mem_In k ks : mem k ks = true <-> In k ks.
Proof.
  unfold mem. rewrite existsb_exists. split.
  - intros [x [Hx E]]. apply String.eqb_eq in E. now subst.
  - intros Hin. exists k. split; [exact Hin | apply String.eqb_refl].
Qed.

Lemma contains_mem k d : contains k d = mem k (keys d).
Proof.
  unfold contains. induction d as [|[k' v'] d IH]; simpl; [reflexivity|].
  rewrite (String.eqb_sym k k').
  destruct (k' =? k); simpl; [reflexivity | exact IH].
Qed.

Lemma keys_setitem k v d : keys (setitem k v d) = add_key (keys d) k.
Proof.
  unfold add_key. induction d as [|[k' v'] d IH]; simpl; [reflexivity|].
  rewrite (String.eqb_sym k k').
  destruct (String.eqb_spec k' k) as [->|Hne]; simpl; [reflexivity|].
  rewrite IH. now destruct (mem k (keys d)).
Qed.

Lemma keys_alter f k d : keys (alter_columns f k d) = keys d.
Proof.
  induction d as [|[k' v'] d IH]; simpl; [reflexivity|].
  destruct (k' =? k); simpl; [reflexivity | now rewrite IH].
Qed.

Lemma keys_register d kv : keys (register d kv) = add_key (keys d) (fst kv).
Proof. apply keys_setitem. Qed.

Lemma keys_attribute d qc : keys (attribute d qc) = add_key (keys d) (fst qc).
Proof.
  unfold attribute. rewrite keys_alter, contains_mem.
  destruct (mem (fst qc) (keys d)) eqn:E.
  - unfold add_key. now rewrite E.
  - apply keys_setitem.
Qed.

Lemma getitem_None_keys k d : getitem k d = None <-> ~ In k (keys d).
Proof.
  rewrite <- mem_In, <- contains_mem. unfold contains.
  destruct (getitem k d); split; congruence.
Qed.

Lemma getitem_In k v d : getitem k d = Some v -> In (k, v) d.
Proof.
  induction d as [|[k' v'] d IH]; simpl; [discriminate|].
  destruct (String.eqb_spec k' k) as [->|Hne].
  - intros [= ->]. now left.
  - intros E. right. now apply IH.
Qed.

Lemma In_getitem k v d : NoDup (keys d) -> In (k, v) d -> getitem k d = Some v.
Proof.
  induction d as [|[k' v'] d IH]; simpl; [tauto|].
  intros Hnd [[= -> ->]|Hin].
  - now rewrite String.eqb_refl.
  - apply NoDup_cons_iff in Hnd as [Hk Hnd].
    destruct (String.eqb_spec k' k) as [->|Hne]; [|now apply IH].
    exfalso. apply Hk. apply (in_map fst) in Hin. exact Hin.
Qed.

Lemma last_key_keys d1 d2 : keys d1 = keys d2 -> last_key d1 = last_key d2.
Proof. unfold last_key. now intros ->. Qed.

Lemma last_key_None d : last_key d = None <-> d = [].
Proof.
  unfold last_key. split; [|now intros ->].
  destruct d as [|kv d]; [reflexivity|]. intros E. exfalso.
  assert (Hne : map Some (keys (kv :: d)) <> []) by discriminate.
  destruct (exists_last Hne) as [l [x Hx]]. rewrite Hx, last_last in E.
  assert (In x (map Some (keys (kv :: d)))) as Hin.
  { rewrite Hx. apply in_or_app. right. now left. }
  apply in_map_iff in Hin as [y [Hy _]]. congruence.
Qed.

Lemma last_key_Some d k : last_key d = Some k -> exists ks, keys d = ks ++ [k].
Proof.
  unfold last_key. intros E.
  destruct (keys d) as [|k0 ks0] eqn:Ek; [discriminate|].
  assert (Hne : k0 :: ks0 <> []) by discriminate.
  destruct (exists_last Hne) as [l [x Hx]]. exists l.
  rewrite Hx, map_app in E. cbn [map] in E. rewrite last_last in E.
  congruence.
Qed.

End Dict.

Lemma filter_filter (A : Type) (f g : A -> bool) (l : list A) :
  filter f (filter g l) = filter (fun x => g x && f x) l.
Proof.
  induction l as [|x l IH]; simpl; [reflexivity|].
  destruct (g x); simpl; [destruct (f x)|]; now rewrite IH.
Qed.

(** ** Steps 1 to 4 as folds over the writes they perform *)

Section Steps.

Implicit Types (d : dict) (k q : string) (t : Expression).

Lemma fold_collect_cte l d :
  fold_left collect_cte l d =
  fold_left register (map (fun e => (alias e, "CTE")) l) d.
Proof. revert d. induction l as [|e l IH]; intros d; simpl; [|rewrite IH]; reflexivity. Qed.

Lemma fold_collect_table l d :
  fold_left collect_table l d =
  fold_left register (map (fun e => (qualifier e, name e)) l) d.
Proof. revert d. induction l as [|e l IH]; intros d; simpl; [|rewrite IH]; reflexivity. Qed.

Lemma fold_collect_subquery l d :
  fold_left collect_subquery l d =
  fold_left register
    (map (fun e => (alias e, "Subquery")) (filter (fun e => truthy (alias e)) l))
    d.
Proof.
  revert d. induction l as [|e l IH]; intros d; simpl; [reflexivity|].
  rewrite IH. unfold collect_subquery.
  destruct (truthy (alias e)); reflexivity.
Qed.

Lemma fold_collect_column l d :
  fold_left collect_column l d =
  fold_left attribute
    (map (fun e => (table e, name e)) (filter (fun e => truthy (table e)) l)) d.
Proof.
  revert d. induction l as [|e l IH]; intros d; simpl; [reflexivity|].
  rewrite IH. unfold collect_column.
  destruct (truthy (table e)); reflexivity.
Qed.

Lemma registered_eq t : registered t = fold_left register (registrations t) [].
Proof.
  unfold registered, registrations, step3, step2, step1, with_info, enter.
  simpl. rewrite fold_collect_cte, fold_collect_table, fold_collect_subquery.
  now rewrite !fold_left_app.
Qed.

Lemma attributed_eq t :
  attributed t = fold_left attribute (attributions t) (registered t).
Proof.
  unfold attributed, registered, attributions, step4, with_info. simpl.
  now rewrite fold_collect_column.
Qed.

Lemma getitem_fold_register regs d q :
  getitem q (fold_left register regs d) =
  match last_registered q regs with
  | Some n => Some (Entry n [])
  | None => getitem q d
  end.
Proof.
  revert d. induction regs as [|[k n] regs IH]; intros d; simpl; [reflexivity|].
  rewrite IH. destruct (last_registered q regs); [reflexivity|].
  unfold register. simpl. rewrite getitem_setitem.
  now destruct (k =? q).
Qed.

Lemma getitem_attribute d qc q :
  getitem q (attribute d qc) =
  if fst qc =? q
  then Some (Entry (match getitem q d with
                    | Some e => table_name e
                    | None => q
                    end)
                   (columns_of q d ++ [snd qc]))
  else getitem q d.
Proof.
  destruct qc as [k c]. unfold attribute, columns_of, contains. simpl.
  rewrite getitem_alter.
  destruct (String.eqb_spec k q) as [->|Hne].
  - destruct (getitem q d) as [e|] eqn:E.
    + now rewrite E.
    + rewrite getitem_setitem, String.eqb_refl. reflexivity.
  - destruct (getitem k d); [reflexivity|].
    rewrite getitem_setitem. now rewrite (proj2 (String.eqb_neq k q)).
Qed.

Lemma getitem_fold_attribute evs d q :
  getitem q (fold_left attribute evs d) =
  match getitem q d with
  | Some e => Some (Entry (table_name e) (columns e ++ attributed_to q evs))
  | None =>
      match attributed_to q evs with
      | [] => None
      | cs => Some (Entry q cs)
      end
  end.
Proof.
  revert d. induction evs as [|[k c] evs IH]; intros d.
  - simpl. destruct (getitem q d) as [[n cs]|]; [|reflexivity].
    simpl. now rewrite app_nil_r.
  - cbn [fold_left]. rewrite IH, getitem_attribute.
    unfold attributed_to, columns_of. cbn [filter fst snd].
    destruct (k =? q); [|reflexivity].
    cbn [map snd]. fold (attributed_to q evs).
    destruct (getitem q d) as [e|]; cbn [table_name columns].
    + now rewrite <- app_assoc.
    + reflexivity.
Qed.

Lemma keys_fold_register regs d :
  keys (fold_left register regs d) = fold_left add_key (map fst regs) (keys d).
Proof.
  revert d. induction regs as [|kv regs IH]; intros d; simpl; [reflexivity|].
  now rewrite IH, keys_register.
Qed.

Lemma keys_fold_attribute evs d :
  keys (fold_left attribute evs d) = fold_left add_key (map fst evs) (keys d).
Proof.
  revert d. induction evs as [|kv evs IH]; intros d; simpl; [reflexivity|].
  now rewrite IH, keys_attribute.
Qed.

Lemma fold_add_key l acc :
  fold_left add_key l acc =
  acc ++ filter (fun y => negb (mem y acc)) (first_seen l).
Proof.
  revert acc. induction l as [|x l IH]; intros acc; simpl.
  - now rewrite app_nil_r.
  - rewrite IH. unfold add_key. destruct (mem x acc) eqn:E; simpl.
    + f_equal. rewrite filter_filter. apply filter_ext_in. intros y _.
      destruct (String.eqb_spec y x) as [->|]; simpl.
      * now rewrite E.
      * reflexivity.
    + rewrite <- app_assoc. simpl. do 2 f_equal.
      rewrite filter_filter. apply filter_ext. intros y.
      unfold mem. rewrite existsb_app. simpl.
      rewrite orb_false_r, negb_orb. apply andb_comm.
Qed.

Lemma map_fst_registrations t : map fst (registrations t) = declared t.
Proof.
  unfold registrations, declared, cte_names, table_qualifiers,
    subquery_aliases.
  rewrite !map_app, !map_map. simpl. do 2 f_equal.
  induction (find_all Subquery t) as [|e l IH]; simpl; [reflexivity|].
  destruct (truthy (alias e)); simpl; now rewrite IH.
Qed.

Lemma map_fst_attributions t : map fst (attributions t) = column_qualifiers t.
Proof.
  unfold attributions, column_qualifiers. rewrite map_map. simpl.
  induction (find_all Column t) as [|e l IH]; simpl; [reflexivity|].
  destruct (truthy (table e)); simpl; now rewrite IH.
Qed.

Lemma keys_registered t : keys (registered t) = first_seen (declared t).
Proof.
  rewrite registered_eq, keys_fold_register, fold_add_key,
    map_fst_registrations. simpl.
  apply filter_true.
Qed.

Lemma keys_attributed t :
  keys (attributed t) = first_seen (declared t ++ column_qualifiers t).
Proof.
  rewrite attributed_eq, keys_fold_attribute, registered_eq,
    keys_fold_register, <- fold_left_app, <- map_fst_registrations,
    <- map_fst_attributions, fold_add_key.
  simpl. apply filter_true.
Qed.

Lemma NoDup_keys_attributed t : NoDup (keys (attributed t)).
Proof. rewrite keys_attributed. apply first_seen_NoDup. Qed.

End Steps.

(** ** Step 5 and the returned dictionary *)

Section Result.

Variable ord : SetOrder.
Implicit Types (d : dict) (k q : string) (t : Expression).

Lemma keys_normalize d : keys (normalize ord d) = keys d.
Proof. unfold keys, normalize. rewrite map_map. reflexivity. Qed.

Lemma getitem_normalize d q :
  getitem q (normalize ord d) =
  option_map (fun e => Entry (table_name e) (sorted_set ord (columns e)))
             (getitem q d).
Proof.
  induction d as [|[k' v'] d IH]; simpl; [reflexivity|].
  destruct (k' =? q); [reflexivity | exact IH].
Qed.

Lemma loop_store t :
  step5_loop ord (step4 (step3 (step2 (step1 (enter t))))) =
  Store t (normalize ord (attributed t)) (last_key (attributed t)).
Proof.
  unfold attributed, step5_loop. f_equal. now destruct (last_key _).
Qed.

Lemma run_eq t :
  run ord t =
  step5_fallback (Store t (normalize ord (attributed t)) (last_key (attributed t))).
Proof. unfold run. now rewrite loop_store. Qed.

Lemma parse_query_eq t :
  parse_query ord t =
  match last_key (attributed t) with
  | None => Raise UnboundLocalError
  | Some k =>
      Return
        (if Nat.eqb (length (columns_of k (normalize ord (attributed t)))) 0
         then alter_columns (fun _ => all_columns t) k (normalize ord (attributed t))
         else normalize ord (attributed t))
  end.
Proof.
  unfold parse_query. rewrite run_eq. unfold step5_fallback. simpl.
  destruct (last_key (attributed t)) as [k|]; [|reflexivity].
  now destruct (Nat.eqb _ 0).
Qed.

Lemma fallback_fires_eq t :
  fallback_fires ord t =
  match last_key (attributed t) with
  | None => false
  | Some k => Nat.eqb (length (sorted_set ord (columns_of k (attributed t)))) 0
  end.
Proof.
  unfold fallback_fires. rewrite loop_store. cbn [alias_data info].
  destruct (last_key (attributed t)) as [k|]; [|reflexivity].
  unfold columns_of. rewrite getitem_normalize.
  destruct (getitem k (attributed t)); simpl; [reflexivity|].
  now rewrite sorted_set_nil.
Qed.

(** The function raises exactly when nothing was registered. *)
Lemma parse_query_raises t :
  parse_query ord t = Raise UnboundLocalError <-> attributed t = [].
Proof.
  rewrite parse_query_eq, <- last_key_None.
  destruct (last_key (attributed t)); split; congruence.
Qed.

Lemma parse_query_returns t :
  attributed t <> [] -> exists r, parse_query ord t = Return r.
Proof.
  intros Hne. destruct (parse_query ord t) as [r|[]] eqn:E; [now exists r|].
  now apply parse_query_raises in E.
Qed.

(** The returned dictionary, entry by entry. *)
Lemma result_entries t r :
  parse_query ord t = Return r ->
  exists k,
    last_key (attributed t) = Some k /\
    keys r = keys (attributed t) /\
    forall q,
      getitem q r = option_map (final_entry ord t k q) (getitem q (attributed t)).
Proof.
  rewrite parse_query_eq.
  destruct (last_key (attributed t)) as [k|] eqn:Ek; [|discriminate].
  intros [= <-]. exists k. split; [reflexivity|].
  unfold columns_of. rewrite getitem_normalize.
  split.
  - destruct (Nat.eqb _ 0); now rewrite ?keys_alter, keys_normalize.
  - intros q. unfold final_entry.
    destruct (getitem k (attributed t)) as [ek|] eqn:Egk; cbn [option_map columns].
    + destruct (Nat.eqb (length (sorted_set ord (columns ek))) 0) eqn:El;
        rewrite ?getitem_alter, !getitem_normalize;
        destruct (String.eqb_spec k q) as [<-|Hne]; cbn [andb];
        rewrite ?Egk; cbn [option_map table_name columns];
        rewrite ?El; reflexivity.
    + cbn [length Nat.eqb]. rewrite getitem_alter, !getitem_normalize.
      destruct (String.eqb_spec k q) as [<-|Hne]; cbn [andb];
        rewrite ?Egk; reflexivity.
Qed.

Lemma NoDup_keys_result t r : parse_query ord t = Return r -> NoDup (keys r).
Proof.
  intros E. apply result_entries in E as [k [_ [Hk _]]].
  rewrite Hk. apply NoDup_keys_attributed.
Qed.

End Result.

(** The entry under [q] after step 4, read off the tree. *)
Lemma getitem_attributed (t : Expression) (q : string) :
  getitem q (attributed t) =
  match last_registered q (registrations t) with
  | Some n => Some (Entry n (attributed_to q (attributions t)))
  | None =>
      match attributed_to q (attributions t) with
      | [] => None
      | cs => Some (Entry q cs)
      end
  end.
Proof.
  rewrite attributed_eq, getitem_fold_attribute, registered_eq,
    getitem_fold_register.
  now destruct (last_registered q (registrations t)).
Qed.

Lemma getitem_registered (t : Expression) (q : string) :
  getitem q (registered t) =
  option_map (fun n => Entry n []) (last_registered q (registrations t)).
Proof.
  rewrite registered_eq, getitem_fold_register.
  now destruct (last_registered q (registrations t)).
Qed.

Lemma last_registered_Some_iff (q : string) (regs : list (string * string)) :
  (exists n, last_registered q regs = Some n) <-> In q (map fst regs).
Proof.
  induction regs as [|[k n] regs IH]; simpl.
  - split; [intros [n E]; discriminate | tauto].
  - destruct (last_registered q regs) as [m|].
    + split; [|now exists m]. intros _. right. apply IH. now exists m.
    + destruct (String.eqb_spec k q) as [->|Hne].
      * split; [now left | now exists n].
      * split; [intros [m E]; discriminate|].
        intros [E|Hin]; [contradiction|]. now apply IH.
Qed.

Lemma attributed_to_In (q c : string) (evs : list (string * string)) :
  In c (attributed_to q evs) <-> In (q, c) evs.
Proof.
  unfold attributed_to. rewrite in_map_iff. split.
  - intros [[k c'] [E Hin]]. simpl in E. subst c'.
    apply filter_In in Hin as [Hin Hk]. simpl in Hk.
    apply String.eqb_eq in Hk. now subst.
  - intros Hin. exists (q, c). split; [reflexivity|].
    apply filter_In. split; [exact Hin|]. simpl. apply String.eqb_refl.
Qed.

Lemma attributed_to_nil_iff (q : string) (evs : list (string * string)) :
  attributed_to q evs = [] <-> ~ In q (map fst evs).
Proof.
  split.
  - intros E Hin. apply in_map_iff in Hin as [[k c] [Hk Hin]]. simpl in Hk.
    subst k. apply attributed_to_In in Hin. rewrite E in Hin. exact Hin.
  - intros Hn. destruct (attributed_to q evs) as [|c cs] eqn:E; [reflexivity|].
    exfalso. apply Hn.
    assert (Hin : In c (attributed_to q evs)) by (rewrite E; now left).
    apply attributed_to_In in Hin. apply (in_map fst) in Hin. exact Hin.
Qed.

(** The result does not depend on the iteration order of [set]. *)
Lemma run_order_irrelevant (ord1 ord2 : SetOrder) (t : Expression) :
  run ord1 t = run ord2 t.
Proof.
  rewrite !run_eq. f_equal. f_equal. unfold normalize.
  apply map_ext. intros kv. now rewrite (sorted_set_order_irrelevant ord1 ord2).
Qed.

Lemma parse_query_order_irrelevant (ord1 ord2 : SetOrder) (t : Expression) :
  parse_query ord1 t = parse_query ord2 t.
Proof. unfold parse_query. now rewrite (run_order_irrelevant ord1 ord2). Qed.

(** ** Properties of [parse_query] *)

(** C1, at the input where it fails.  For [SELECT 1] nothing is registered,
    the loop of step 5 never binds [alias_data], and the test after the loop
    raises [UnboundLocalError]: the function does not return an empty map
    for a query without CTE, table, subquery or column nodes. *)
Theorem parse_query_empty_raises (ord : SetOrder) :
  attributed select_1 = [] /\
  parse_query ord select_1 = Raise UnboundLocalError.
Proof.
  split; [reflexivity|]. now apply parse_query_raises.
Qed.

(** C2: after normalisation the fallback touches the last entry only.  With
    [k] the last key of the returned dictionary, the columns under [k] are
    the list of [alias_or_name] of all column nodes (in traversal order,
    duplicates kept) exactly when the sorted set of the columns attributed
    to [k] is empty, and that sorted set otherwise; every other entry holds
    the sorted set of its attributed columns, so an empty one stays empty.
    For the UNION query, [table2] gets the fallback list and [table1] keeps
    no columns. *)
Theorem fallback_last_entry_only (ord : SetOrder) :
  (forall t r,
      parse_query ord t = Return r ->
      exists k,
        last_key r = Some k /\
        (sorted_set ord (columns_of k (attributed t)) = [] ->
         columns_of k r = map alias_or_name (find_all Column t)) /\
        (sorted_set ord (columns_of k (attributed t)) <> [] ->
         columns_of k r = sorted_set ord (columns_of k (attributed t))) /\
        (forall q, q <> k ->
                   columns_of q r = sorted_set ord (columns_of q (attributed t))))
  /\ parse_query ord union_query = Return union_result.
Proof.
  split.
  - intros t r E. apply result_entries in E as [k [Hk [Hkeys Hq]]].
    exists k. split; [now rewrite (last_key_keys _ _ Hkeys)|].
    assert (Hcols : forall q,
               columns_of q r =
               let cs := sorted_set ord (columns_of q (attributed t)) in
               if (k =? q) && Nat.eqb (length cs) 0
               then match getitem q (attributed t) with
                    | Some _ => all_columns t
                    | None => []
                    end
               else cs).
    { intros q. unfold columns_of at 1. rewrite Hq. unfold columns_of.
      destruct (getitem q (attributed t)) as [e4|]; simpl.
      - reflexivity.
      - rewrite sorted_set_nil. now destruct (k =? q). }
    assert (Hin : getitem k (attributed t) <> None).
    { intros Hn. apply getitem_None_keys in Hn. apply Hn.
      destruct (last_key_Some _ _ Hk) as [ks ->]. apply in_or_app. right.
      now left. }
    repeat split.
    + intros Hnil. rewrite Hcols. cbn zeta. rewrite Hnil, String.eqb_refl.
      simpl. now destruct (getitem k (attributed t)).
    + intros Hnn. rewrite Hcols. cbn zeta.
      destruct (sorted_set ord (columns_of k (attributed t))); [congruence|].
      now rewrite andb_false_r.
    + intros q Hne. rewrite Hcols. cbn zeta.
      now rewrite (proj2 (String.eqb_neq k q)) by congruence.
  - rewrite (parse_query_order_irrelevant ord insertion_order). reflexivity.
Qed.

Lemma fallback_last_entry_only_witness :
  parse_query insertion_order union_query = Return union_result /\
  exists k,
    last_key union_result = Some k /\
    (sorted_set insertion_order (columns_of k (attributed union_query)) = [] ->
     columns_of k union_result = map alias_or_name (find_all Column union_query)) /\
    (sorted_set insertion_order (columns_of k (attributed union_query)) <> [] ->
     columns_of k union_result =
     sorted_set insertion_order (columns_of k (attributed union_query))) /\
    (forall q, q <> k ->
               columns_of q union_result =
               sorted_set insertion_order (columns_of q (attributed union_query))).
Proof.
  split; [reflexivity|].
  exact (proj1 (fallback_last_entry_only insertion_order)
               union_query union_result eq_refl).
Defined.

(** C6: the keys of the returned dictionary are the first occurrences, in
    order, of: the CTE names, then the table qualifiers, then the aliases of
    aliased subqueries, then the qualifiers of qualified columns.  A key
    keeps the position of its first registration. *)
Theorem key_order_first_registration (ord : SetOrder) (t : Expression)
  (r : dict) :
  parse_query ord t = Return r ->
  keys r =
  first_seen (cte_names t ++ table_qualifiers t ++ subquery_aliases t
              ++ column_qualifiers t).
Proof.
  intros E. apply result_entries in E as [k [_ [Hkeys _]]].
  rewrite Hkeys, keys_attributed. unfold declared.
  now rewrite <- !app_assoc.
Qed.

Lemma key_order_first_registration_witness :
  parse_query insertion_order mixed_query = Return mixed_result /\
  cte_names mixed_query = ["x"] /\
  table_qualifiers mixed_query = ["y"; "x"] /\
  subquery_aliases mixed_query = ["s"] /\
  column_qualifiers mixed_query = ["y"; "o"; "s"] /\
  keys mixed_result = ["x"; "y"; "s"; "o"] /\
  keys mixed_result =
  first_seen (cte_names mixed_query ++ table_qualifiers mixed_query
              ++ subquery_aliases mixed_query
              ++ column_qualifiers mixed_query).
Proof.
  repeat (split; [reflexivity|]).
  apply (key_order_first_registration insertion_order mixed_query).
  reflexivity.
Defined.

(** C7: a second run on the tree the first run leaves behind returns the
    same result (the same dictionary, or the same exception), whatever order
    the two runs iterate their sets in. *)
Theorem extractor_deterministic (ord1 ord2 : SetOrder) (t : Expression) :
  parse_query ord2 (parsed (fst (run ord1 t))) = parse_query ord1 t.
Proof.
  rewrite run_eq.
  assert (Hp : forall s, parsed (fst (step5_fallback s)) = parsed s).
  { intros s. unfold step5_fallback.
    destruct (alias_data s); [|reflexivity].
    now destruct (Nat.eqb _ 0). }
  rewrite Hp. simpl. apply parse_query_order_irrelevant.
Qed.

(** C3: every CTE name, every table qualifier ([alias or name]) and every
    alias of an aliased subquery is a key of the returned dictionary, whether
    or not a qualified column uses it; and a qualifier that only prefixes
    columns, declared nowhere, is a key whose entry has the qualifier itself
    as [table_name]. *)
Theorem declared_and_unknown_keys (ord : SetOrder) (t : Expression)
  (q : string) :
  (In q (cte_names t) \/ In q (table_qualifiers t)
   \/ In q (subquery_aliases t) ->
   exists r e, parse_query ord t = Return r /\ getitem q r = Some e) /\
  (In q (column_qualifiers t) -> ~ In q (declared t) ->
   exists r e,
     parse_query ord t = Return r /\ getitem q r = Some e /\ table_name e = q).
Proof.
  assert (Hret : forall e4, getitem q (attributed t) = Some e4 ->
                 exists r e, parse_query ord t = Return r /\
                             getitem q r = Some e /\
                             table_name e = table_name e4).
  { intros e4 E4.
    destruct (@parse_query_returns ord t) as [r Er].
    { intros Hnil. rewrite Hnil in E4. discriminate. }
    exists r. destruct (result_entries _ _ _ Er) as [k [_ [_ Hq]]].
    exists (final_entry ord t k q e4). rewrite Hq, E4. now split. }
  split.
  - intros Hdecl.
    assert (Hin : In q (declared t)).
    { unfold declared. rewrite !in_app_iff. tauto. }
    rewrite <- map_fst_registrations in Hin.
    apply last_registered_Some_iff in Hin as [n Hn].
    destruct (Hret (Entry n (attributed_to q (attributions t))))
      as [r [e [Er [Ee _]]]].
    { now rewrite getitem_attributed, Hn. }
    now exists r, e.
  - intros Hcol Hnd.
    rewrite <- map_fst_registrations in Hnd.
    assert (Hn : last_registered q (registrations t) = None).
    { destruct (last_registered q (registrations t)) as [n|] eqn:E;
        [|reflexivity].
      exfalso. apply Hnd, last_registered_Some_iff. now exists n. }
    rewrite <- map_fst_attributions in Hcol.
    destruct (attributed_to q (attributions t)) as [|c cs] eqn:Ecs.
    { exfalso. now apply attributed_to_nil_iff in Ecs. }
    destruct (Hret (Entry q (c :: cs))) as [r [e [Er [Ee Et]]]].
    { now rewrite getitem_attributed, Hn, Ecs. }
    now exists r, e.
Qed.

Lemma declared_and_unknown_keys_witness :
  (exists r e, parse_query insertion_order unknown_query = Return r /\
               getitem "t" r = Some e) /\
  (exists r e, parse_query insertion_order unknown_query = Return r /\
               getitem "o" r = Some e /\ table_name e = "o").
Proof.
  split.
  - apply (proj1 (declared_and_unknown_keys insertion_order unknown_query "t")).
    right. left. simpl. now left.
  - apply (proj2 (declared_and_unknown_keys insertion_order unknown_query "o")).
    + simpl. now left.
    + simpl. intros [E|[]]. discriminate E.
Defined.

(** C4: an entry of the returned dictionary that the fallback did not
    overwrite (the fallback did not fire, or the entry is not the last one)
    has columns without duplicates and in increasing order. *)
Theorem columns_sorted_nodup (ord : SetOrder) (t : Expression) (r : dict)
  (q : string) (e : entry) :
  parse_query ord t = Return r ->
  In (q, e) r ->
  fallback_fires ord t = false \/ last_key r <> Some q ->
  NoDup (columns e) /\ StronglySorted StrOrder.le (columns e).
Proof.
  intros E Hin Hnf.
  pose proof (NoDup_keys_result _ _ _ E) as Hnd.
  apply (In_getitem _ _ _ Hnd) in Hin.
  destruct (result_entries _ _ _ E) as [k [Hk [Hkeys Hq]]].
  rewrite Hq in Hin.
  destruct (getitem q (attributed t)) as [e4|] eqn:E4; [|discriminate].
  simpl in Hin. injection Hin as <-.
  assert (Hs : columns (final_entry ord t k q e4) = sorted_set ord (columns e4)).
  { unfold final_entry. cbn [columns].
    destruct (String.eqb_spec k q) as [->|Hne]; [|reflexivity].
    cbn [andb]. destruct Hnf as [Hf|Hl].
    - rewrite fallback_fires_eq, Hk in Hf. unfold columns_of in Hf.
      rewrite E4 in Hf. now rewrite Hf.
    - exfalso. apply Hl. now rewrite (last_key_keys _ _ Hkeys). }
  rewrite Hs. split.
  - apply strict_NoDup, sorted_set_strict.
  - apply strict_le, sorted_set_strict.
Qed.

Lemma columns_sorted_nodup_witness :
  NoDup ["column1"; "common_column"] /\
  StronglySorted StrOrder.le ["column1"; "common_column"].
Proof.
  apply (@columns_sorted_nodup insertion_order join_query
           [ ("a", Entry "table1" ["column1"; "common_column"]);
             ("b", Entry "table2" ["column2"; "common_column"]) ]
           "a" (Entry "table1" ["column1"; "common_column"])).
  - reflexivity.
  - simpl. now left.
  - left. reflexivity.
Defined.

(** *** Which registration an entry's [table_name] comes from *)

Lemma last_registered_app (q : string) (l1 l2 : list (string * string)) :
  last_registered q (l1 ++ l2) =
  match last_registered q l2 with
  | Some m => Some m
  | None => last_registered q l1
  end.
Proof.
  induction l1 as [|[k n] l1 IH]; simpl.
  - now destruct (last_registered q l2).
  - rewrite IH. now destruct (last_registered q l2).
Qed.

Lemma last_registered_None (q : string) (l : list (string * string)) :
  ~ In q (map fst l) -> last_registered q l = None.
Proof.
  intros Hn. destruct (last_registered q l) as [n|] eqn:E; [|reflexivity].
  exfalso. apply Hn, last_registered_Some_iff. now exists n.
Qed.

Lemma last_registered_In (q n : string) (l : list (string * string)) :
  last_registered q l = Some n -> In (q, n) l.
Proof.
  induction l as [|[k m] l IH]; simpl; [discriminate|].
  destruct (last_registered q l) as [m'|].
  - intros [= ->]. right. now apply IH.
  - destruct (String.eqb_spec k q) as [->|]; [|discriminate].
    intros [= ->]. now left.
Qed.

Lemma last_registered_last (q n : string) (l1 l2 : list (string * string)) :
  ~ In q (map fst l2) -> last_registered q (l1 ++ (q, n) :: l2) = Some n.
Proof.
  intros Hn. rewrite last_registered_app. simpl.
  now rewrite (last_registered_None _ _ Hn), String.eqb_refl.
Qed.

Lemma last_occurrence (f : Expression -> string) (q : string)
  (l : list Expression) :
  In q (map f l) ->
  exists l1 x l2,
    l = l1 ++ x :: l2 /\ f x = q /\ forall y, In y l2 -> f y <> q.
Proof.
  induction l as [|a l IH]; simpl; [tauto|]. intros Hin.
  destruct (in_dec string_dec q (map f l)) as [Hl|Hl].
  - destruct (IH Hl) as [l1 [x [l2 [-> [Hx Hl2]]]]].
    now exists (a :: l1), x, l2.
  - destruct Hin as [Ha|Hin]; [|contradiction].
    exists [], a, l. repeat split; [exact Ha|].
    intros y Hy Hfy. apply Hl. rewrite <- Hfy. now apply in_map.
Qed.

Lemma columns_attributed (t : Expression) (q : string) (e4 : entry) :
  getitem q (attributed t) = Some e4 ->
  columns e4 = attributed_to q (attributions t).
Proof.
  rewrite getitem_attributed.
  destruct (last_registered q (registrations t)).
  - now intros [= <-].
  - destruct (attributed_to q (attributions t)); [discriminate|].
    now intros [= <-].
Qed.

Lemma table_name_result (ord : SetOrder) (t : Expression) (r : dict)
  (q n : string) (e : entry) :
  parse_query ord t = Return r -> getitem q r = Some e ->
  last_registered q (registrations t) = Some n -> table_name e = n.
Proof.
  intros E Eq Hn. apply result_entries in E as [k [_ [_ Hq]]].
  rewrite Hq, getitem_attributed, Hn in Eq. simpl in Eq.
  now injection Eq as <-.
Qed.

Lemma final_columns_kept (ord : SetOrder) (t : Expression) (k q : string)
  (e4 : entry) :
  columns e4 <> [] ->
  columns (final_entry ord t k q e4) = sorted_set ord (columns e4).
Proof.
  intros Hne. unfold final_entry. cbn [columns].
  destruct (sorted_set ord (columns e4)) eqn:E.
  - now apply sorted_set_nil_iff in E.
  - now rewrite andb_false_r.
Qed.

(** C5: the registration written last under a key decides the entry's
    [table_name], and it leaves the entry with no columns after steps 1 to
    3; all the same, every column qualified by that key anywhere in the tree
    is among the columns of the returned entry. *)
Theorem last_write_wins_columns_additive (ord : SetOrder) (t : Expression)
  (r : dict) (q : string) (e : entry) :
  parse_query ord t = Return r ->
  getitem q r = Some e ->
  (forall l1 n l2,
      registrations t = l1 ++ (q, n) :: l2 -> ~ In q (map fst l2) ->
      getitem q (registered t) = Some (Entry n []) /\ table_name e = n) /\
  (forall c,
      In c (find_all Column t) -> truthy (table c) = true -> table c = q ->
      In (name c) (columns e)).
Proof.
  intros E Eq. split.
  - intros l1 n l2 Hregs Hl2.
    assert (Hn : last_registered q (registrations t) = Some n).
    { rewrite Hregs. now apply last_registered_last. }
    split.
    + now rewrite getitem_registered, Hn.
    + exact (table_name_result _ _ _ _ _ _ E Eq Hn).
  - intros c Hc Ht Hq.
    assert (Hin : In (name c) (attributed_to q (attributions t))).
    { apply attributed_to_In. unfold attributions.
      apply in_map_iff. exists c. split; [now rewrite Hq|].
      apply filter_In. now split. }
    apply result_entries in E as [k [_ [_ Hget]]].
    rewrite Hget in Eq.
    destruct (getitem q (attributed t)) as [e4|] eqn:E4; [|discriminate].
    simpl in Eq. injection Eq as <-.
    rewrite <- (columns_attributed _ _ _ E4) in Hin.
    rewrite final_columns_kept.
    + now apply sorted_set_In.
    + intros Hnil. now rewrite Hnil in Hin.
Qed.

Lemma last_write_wins_columns_additive_witness :
  (forall l1 n l2,
      registrations shadowed_query = l1 ++ ("x", n) :: l2 ->
      ~ In "x" (map fst l2) ->
      getitem "x" (registered shadowed_query) = Some (Entry n []) /\
      table_name (Entry "Subquery" ["a"]) = n) /\
  (forall c,
      In c (find_all Column shadowed_query) -> truthy (table c) = true ->
      table c = "x" -> In (name c) (columns (Entry "Subquery" ["a"]))).
Proof.
  apply (last_write_wins_columns_additive insertion_order shadowed_query
           [("x", Entry "Subquery" ["a"])]); reflexivity.
Defined.

(** C9: an entry whose key is declared nowhere (it was created by step 4)
    has at least one column; and when such an entry is the last one, the
    condition of the fallback is false. *)
Theorem unknown_entries_nonempty (ord : SetOrder) (t : Expression) (r : dict)
  (q : string) (e : entry) :
  parse_query ord t = Return r ->
  getitem q r = Some e ->
  ~ In q (declared t) ->
  columns e <> [] /\ (last_key r = Some q -> fallback_fires ord t = false).
Proof.
  intros E Eq Hnd.
  destruct (result_entries _ _ _ E) as [k [Hk [Hkeys Hget]]].
  rewrite Hget in Eq.
  destruct (getitem q (attributed t)) as [e4|] eqn:E4; [|discriminate].
  simpl in Eq. injection Eq as <-.
  assert (Hne : columns e4 <> []).
  { rewrite <- map_fst_registrations in Hnd.
    rewrite getitem_attributed, (last_registered_None _ _ Hnd) in E4.
    destruct (attributed_to q (attributions t)); [discriminate|].
    injection E4 as <-. discriminate. }
  split.
  - rewrite (final_columns_kept _ _ _ _ _ Hne).
    intros Hnil. now apply sorted_set_nil_iff in Hnil.
  - intros Hlast. rewrite (last_key_keys _ _ Hkeys), Hk in Hlast.
    injection Hlast as ->.
    rewrite fallback_fires_eq, Hk. unfold columns_of. rewrite E4.
    destruct (sorted_set ord (columns e4)) eqn:Es; [|reflexivity].
    now apply sorted_set_nil_iff in Es.
Qed.

Lemma unknown_entries_nonempty_witness :
  columns (Entry "o" ["col"]) <> [] /\
  (last_key [("t", Entry "t" []); ("o", Entry "o" ["col"])] = Some "o" ->
   fallback_fires insertion_order unknown_query = false).
Proof.
  apply (unknown_entries_nonempty insertion_order unknown_query
           [("t", Entry "t" []); ("o", Entry "o" ["col"])] "o").
  - reflexivity.
  - reflexivity.
  - simpl. intros [E|[]]. discriminate E.
Defined.

(** C10 as stated is refuted twice.  A CTE name that a table reference
    and an aliased subquery both reuse: step 3 writes last, so the entry does
    not end with the name of any table node.  And a CTE that is itself named
    CTE and is read in a FROM clause: step 2 writes the table's name into
    the field that holds the marker, so the entry still reads "CTE". *)
Lemma cte_not_always_physical_table :
  ~ (forall (ord : SetOrder) (t : Expression) (q : string) (r : dict)
            (e : entry),
        In q (cte_names t) -> In q (table_qualifiers t) ->
        parse_query ord t = Return r -> getitem q r = Some e ->
        exists tbl, In tbl (find_all Table t) /\ qualifier tbl = q /\
                    table_name e = name tbl) /\
  ~ (forall (ord : SetOrder) (t : Expression) (q : string) (r : dict)
            (e : entry),
        In q (cte_names t) -> In q (table_qualifiers t) ->
        parse_query ord t = Return r -> getitem q r = Some e ->
        table_name e <> "CTE").
Proof.
  split; intros C.
  - destruct (C insertion_order shadowed_query "x"
                [("x", Entry "Subquery" ["a"])] (Entry "Subquery" ["a"]))
      as [tbl [Hin [_ Hn]]]; try reflexivity; try (simpl; now left).
    simpl in Hin. destruct Hin as [<-|[]]. discriminate Hn.
  - apply (C insertion_order cte_named_query "CTE"
             [("CTE", Entry "CTE" ["a"])] (Entry "CTE" ["a"]));
      try reflexivity; simpl; now left.
Qed.

(** C10, amended: when a table reference's effective qualifier equals a CTE
    name, the entry ends with [table_name] "Subquery" if an aliased subquery
    reuses the name too, and otherwise with the name of the last table node
    that has this qualifier, as written by step 2 over the CTE marker.  The
    entry then no longer reads "CTE", provided no table node with this
    qualifier is itself named CTE. *)
Theorem cte_overwritten_by_table (ord : SetOrder) (t : Expression) (q : string)
  (r : dict) (e : entry) :
  In q (cte_names t) -> In q (table_qualifiers t) ->
  parse_query ord t = Return r -> getitem q r = Some e ->
  (In q (subquery_aliases t) -> table_name e = "Subquery") /\
  (~ In q (subquery_aliases t) ->
   exists l1 tbl l2,
     find_all Table t = l1 ++ tbl :: l2 /\ qualifier tbl = q /\
     (forall x, In x l2 -> qualifier x <> q) /\
     table_name e = name tbl) /\
  ((forall tbl, In tbl (find_all Table t) -> qualifier tbl = q ->
                name tbl <> "CTE") ->
   table_name e <> "CTE").
Proof.
  intros _ Htab E Eq.
  set (A := map (fun e => (alias e, "CTE")) (find_all CTE t)).
  set (C := map (fun e => (alias e, "Subquery"))
                (filter (fun e => truthy (alias e)) (find_all Subquery t))).
  assert (HC : map fst C = subquery_aliases t).
  { unfold C, subquery_aliases. rewrite map_map. simpl.
    induction (find_all Subquery t) as [|x l IH]; simpl; [reflexivity|].
    destruct (truthy (alias x)); simpl; now rewrite IH. }
  assert (Hsubq : In q (subquery_aliases t) -> table_name e = "Subquery").
  { intros Hsub. rewrite <- HC in Hsub.
    apply last_registered_Some_iff in Hsub as [n Hn].
    assert (n = "Subquery") as ->.
    { apply last_registered_In in Hn. unfold C in Hn.
      apply in_map_iff in Hn as [x [[= _ <-] _]]. reflexivity. }
    apply (table_name_result _ _ _ _ _ _ E Eq).
    unfold registrations. fold A C.
    now rewrite app_assoc, last_registered_app, Hn. }
  assert (Htbl : ~ In q (subquery_aliases t) ->
                 exists l1 tbl l2,
                   find_all Table t = l1 ++ tbl :: l2 /\ qualifier tbl = q /\
                   (forall x, In x l2 -> qualifier x <> q) /\
                   table_name e = name tbl).
  { intros Hsub. rewrite <- HC in Hsub.
    destruct (last_occurrence qualifier q (find_all Table t) Htab)
      as [l1 [tbl [l2 [Hsplit [Hq Hl2]]]]].
    exists l1, tbl, l2. repeat split; try assumption.
    apply (table_name_result _ _ _ _ _ _ E Eq).
    unfold registrations. fold A C.
    rewrite app_assoc, last_registered_app, (last_registered_None _ _ Hsub).
    rewrite Hsplit, map_app. cbn [map]. rewrite Hq.
    rewrite app_assoc. apply last_registered_last.
    rewrite map_map. simpl. intros Hin.
    apply in_map_iff in Hin as [y [Hy Hin]]. exact (Hl2 y Hin Hy). }
  repeat split; [exact Hsubq | exact Htbl |].
  intros Hnames Hcte.
  destruct (in_dec string_dec q (subquery_aliases t)) as [Hsub|Hsub].
  - rewrite (Hsubq Hsub) in Hcte. discriminate Hcte.
  - destruct (Htbl Hsub) as [l1 [tbl [l2 [Hsplit [Hq [_ Hn]]]]]].
    apply (Hnames tbl); [|exact Hq|congruence].
    rewrite Hsplit. apply in_or_app. right. now left.
Qed.

Lemma cte_overwritten_by_table_witness :
  (In "x" (subquery_aliases cte_query) ->
   table_name (Entry "x" ["a"]) = "Subquery") /\
  (~ In "x" (subquery_aliases cte_query) ->
   exists l1 tbl l2,
     find_all Table cte_query = l1 ++ tbl :: l2 /\ qualifier tbl = "x" /\
     (forall x, In x l2 -> qualifier x <> "x") /\
     table_name (Entry "x" ["a"]) = name tbl) /\
  ((forall tbl, In tbl (find_all Table cte_query) -> qualifier tbl = "x" ->
                name tbl <> "CTE") ->
   table_name (Entry "x" ["a"]) <> "CTE").
Proof.
  apply (cte_overwritten_by_table insertion_order cte_query "x"
           [("x", Entry "x" ["a"])]).
  - simpl. now left.
  - simpl. now left.
  - reflexivity.
  - reflexivity.
Defined.

(** ** Further properties of [parse_query] *)

Lemma truthy_false_iff (s : string) : truthy s = false <-> s = "".
Proof.
  unfold truthy. rewrite negb_false_iff. apply String.eqb_eq.
Qed.

Lemma filter_nil_iff (A : Type) (f : A -> bool) (l : list A) :
  filter f l = [] <-> forall x, In x l -> f x = false.
Proof.
  induction l as [|a l IH]; simpl.
  - split; [intros _ x [] | reflexivity].
  - destruct (f a) eqn:Ea.
    + split; [discriminate|]. intros Hall.
      rewrite (Hall a (or_introl eq_refl)) in Ea. discriminate.
    + rewrite IH. split.
      * intros Hall x [<-|Hx]; [exact Ea | now apply Hall].
      * intros Hall x Hx. apply Hall. now right.
Qed.

Lemma attributed_nil_iff (t : Expression) :
  attributed t = [] <-> declared t ++ column_qualifiers t = [].
Proof.
  pose proof (keys_attributed t) as Hk. split; intros E.
  - rewrite E in Hk. simpl in Hk.
    destruct (declared t ++ column_qualifiers t); [reflexivity|discriminate].
  - rewrite E in Hk. simpl in Hk.
    destruct (attributed t); [reflexivity|discriminate].
Qed.

(** The call raises [UnboundLocalError] exactly when the tree has no CTE
    node, no table node, no subquery with an alias and no column with a
    qualifier; in every other case it returns. *)
Theorem raises_iff_nothing_registered (ord : SetOrder) (t : Expression) :
  parse_query ord t = Raise UnboundLocalError <->
  find_all CTE t = [] /\ find_all Table t = [] /\
  (forall s, In s (find_all Subquery t) -> alias s = "") /\
  (forall c, In c (find_all Column t) -> table c = "").
Proof.
  rewrite parse_query_raises, attributed_nil_iff.
  unfold declared, cte_names, table_qualifiers, subquery_aliases,
    column_qualifiers.
  assert (Hmap : forall (f : Expression -> string) l,
             filter truthy (map f l) = [] <->
             forall x, In x l -> f x = "").
  { intros f l. rewrite filter_nil_iff. split.
    - intros Hall x Hx. apply truthy_false_iff, Hall. now apply in_map.
    - intros Hall s Hs. apply in_map_iff in Hs as [x [<- Hx]].
      apply truthy_false_iff. now apply Hall. }
  rewrite <- !Hmap. split.
  - intros E. apply app_eq_nil in E as [E Ecol].
    apply app_eq_nil in E as [Ecte E]. apply app_eq_nil in E as [Etab Esub].
    apply map_eq_nil in Ecte, Etab. now repeat split.
  - intros [-> [-> [-> ->]]]. reflexivity.
Qed.

(** A returned dictionary is never empty. *)
Theorem result_never_empty (ord : SetOrder) (t : Expression) (r : dict) :
  parse_query ord t = Return r -> r <> [].
Proof.
  intros E Hnil. apply result_entries in E as [k [Hk [Hkeys _]]].
  apply last_key_Some in Hk as [ks Hks]. rewrite Hnil, Hks in Hkeys.
  simpl in Hkeys. now destruct ks.
Qed.

Lemma result_never_empty_witness : union_result <> [].
Proof.
  apply (result_never_empty insertion_order union_query). reflexivity.
Defined.

(** The keys of the returned dictionary are pairwise distinct and are
    exactly the CTE names, the table qualifiers, the non-empty subquery
    aliases and the non-empty column qualifiers of the tree; the empty
    string is a key only when a CTE or a table reference is named so. *)
Theorem result_keys_exact (ord : SetOrder) (t : Expression) (r : dict) :
  parse_query ord t = Return r ->
  NoDup (keys r) /\
  (forall q,
      In q (keys r) <->
      In q (cte_names t) \/ In q (table_qualifiers t) \/
      In q (subquery_aliases t) \/ In q (column_qualifiers t)) /\
  (In "" (keys r) -> In "" (cte_names t) \/ In "" (table_qualifiers t)).
Proof.
  intros E. pose proof (NoDup_keys_result _ _ _ E) as Hnd.
  apply result_entries in E as [k [_ [Hkeys _]]].
  assert (Hiff : forall q,
             In q (keys r) <->
             In q (cte_names t) \/ In q (table_qualifiers t) \/
             In q (subquery_aliases t) \/ In q (column_qualifiers t)).
  { intros q. rewrite Hkeys, keys_attributed, first_seen_In.
    unfold declared. rewrite !in_app_iff. tauto. }
  repeat split; try exact Hnd; try apply Hiff.
  intros Hin. apply Hiff in Hin as [Hc|[Ht|[Hs|Hq]]]; [now left|now right| |].
  - unfold subquery_aliases in Hs. apply filter_In in Hs as [_ Hs].
    discriminate Hs.
  - unfold column_qualifiers in Hq. apply filter_In in Hq as [_ Hq].
    discriminate Hq.
Qed.

Lemma result_keys_exact_witness :
  NoDup (keys union_result) /\
  (forall q,
      In q (keys union_result) <->
      In q (cte_names union_query) \/ In q (table_qualifiers union_query) \/
      In q (subquery_aliases union_query) \/
      In q (column_qualifiers union_query)) /\
  (In "" (keys union_result) ->
   In "" (cte_names union_query) \/ In "" (table_qualifiers union_query)).
Proof.
  apply (result_keys_exact insertion_order union_query). reflexivity.
Defined.

Lemma result_entry_inv (ord : SetOrder) (t : Expression) (r : dict)
  (q : string) (e : entry) :
  parse_query ord t = Return r -> getitem q r = Some e ->
  exists k e4,
    last_key r = Some k /\ getitem q (attributed t) = Some e4 /\
    columns e4 = attributed_to q (attributions t) /\
    table_name e4 = match last_registered q (registrations t) with
                    | Some n => n
                    | None => q
                    end /\
    e = final_entry ord t k q e4.
Proof.
  intros E Eq. apply result_entries in E as [k [Hk [Hkeys Hget]]].
  rewrite Hget in Eq.
  destruct (getitem q (attributed t)) as [e4|] eqn:E4; [|discriminate].
  simpl in Eq. injection Eq as <-. exists k, e4.
  repeat split.
  - now rewrite (last_key_keys _ _ Hkeys).
  - now apply columns_attributed.
  - rewrite getitem_attributed in E4.
    destruct (last_registered q (registrations t)).
    + now injection E4 as <-.
    + destruct (attributed_to q (attributions t)); [discriminate|].
      now injection E4 as <-.
Qed.

Lemma in_attributions_iff (t : Expression) (q c : string) :
  In (q, c) (attributions t) <->
  exists col, In col (find_all Column t) /\ truthy (table col) = true /\
              table col = q /\ name col = c.
Proof.
  unfold attributions. rewrite in_map_iff. split.
  - intros [col [[= <- <-] Hin]]. apply filter_In in Hin as [Hin Ht].
    now exists col.
  - intros [col [Hin [Ht [<- <-]]]]. exists col. split; [reflexivity|].
    apply filter_In. now split.
Qed.

(** When no column of the tree carries a qualifier, the fallback always
    applies: the returned dictionary has the keys and table names written by
    steps 1 to 3, its last entry lists [alias_or_name] of every column node,
    and every other entry has no columns. *)
Theorem unqualified_query_fallback (ord : SetOrder) (t : Expression)
  (r : dict) :
  column_qualifiers t = [] ->
  parse_query ord t = Return r ->
  exists k,
    last_key r = Some k /\
    keys r = keys (registered t) /\
    columns_of k r = map alias_or_name (find_all Column t) /\
    (forall q, q <> k -> columns_of q r = []) /\
    (forall q, option_map table_name (getitem q r) =
               option_map table_name (getitem q (registered t))).
Proof.
  intros Hcq E.
  assert (Hattr : attributed t = registered t).
  { rewrite attributed_eq. rewrite <- map_fst_attributions in Hcq.
    apply map_eq_nil in Hcq. now rewrite Hcq. }
  apply result_entries in E as [k [Hk [Hkeys Hget]]].
  rewrite Hattr in Hk, Hkeys, Hget.
  assert (Hcols : forall q,
             columns_of q r =
             if k =? q
             then match getitem q (registered t) with
                  | Some _ => all_columns t
                  | None => []
                  end
             else []).
  { intros q. unfold columns_of. rewrite Hget, getitem_registered.
    destruct (last_registered q (registrations t)); simpl.
    - rewrite sorted_set_nil. simpl. now rewrite andb_true_r.
    - now destruct (k =? q). }
  exists k. repeat split.
  - now rewrite (last_key_keys _ _ Hkeys).
  - exact Hkeys.
  - rewrite Hcols, String.eqb_refl.
    destruct (getitem k (registered t)) eqn:Egk; [reflexivity|].
    exfalso. apply getitem_None_keys in Egk. apply Egk.
    destruct (last_key_Some _ _ Hk) as [ks ->]. apply in_or_app. right.
    now left.
  - intros q Hne. rewrite Hcols.
    now rewrite (proj2 (String.eqb_neq k q)) by congruence.
  - intros q. rewrite Hget. now destruct (getitem q (registered t)).
Qed.

Lemma unqualified_query_fallback_witness :
  exists k,
    last_key union_result = Some k /\
    keys union_result = keys (registered union_query) /\
    columns_of k union_result = map alias_or_name (find_all Column union_query) /\
    (forall q, q <> k -> columns_of q union_result = []) /\
    (forall q, option_map table_name (getitem q union_result) =
               option_map table_name (getitem q (registered union_query))).
Proof.
  apply (unqualified_query_fallback insertion_order union_query);
    reflexivity.
Defined.

(** An entry that the fallback did not overwrite holds exactly the names of
    the column nodes qualified by its key: nothing qualified otherwise, and
    no unqualified column, gets in. *)
Theorem columns_exactly_qualified (ord : SetOrder) (t : Expression)
  (r : dict) (q : string) (e : entry) :
  parse_query ord t = Return r ->
  getitem q r = Some e ->
  fallback_fires ord t = false \/ last_key r <> Some q ->
  forall c,
    In c (columns e) <->
    exists col, In col (find_all Column t) /\ truthy (table col) = true /\
                table col = q /\ name col = c.
Proof.
  intros E Eq Hnf c.
  destruct (result_entry_inv _ _ _ _ _ E Eq)
    as [k [e4 [Hk [E4 [Hcs [_ ->]]]]]].
  assert (Hs : columns (final_entry ord t k q e4) =
               sorted_set ord (columns e4)).
  { unfold final_entry. cbn [columns].
    destruct (String.eqb_spec k q) as [->|Hne]; [|reflexivity].
    cbn [andb]. destruct Hnf as [Hf|Hl]; [|contradiction].
    rewrite fallback_fires_eq in Hf.
    apply result_entries in E as [k' [Hk' [Hkeys _]]].
    rewrite (last_key_keys _ _ Hkeys), Hk' in Hk. injection Hk as ->.
    rewrite Hk' in Hf. unfold columns_of in Hf. rewrite E4 in Hf.
    now rewrite Hf. }
  rewrite Hs, sorted_set_In, Hcs, attributed_to_In.
  apply in_attributions_iff.
Qed.

Lemma columns_exactly_qualified_witness :
  In "column1" ["column1"; "common_column"] <->
  exists col, In col (find_all Column join_query) /\
              truthy (table col) = true /\ table col = "a" /\
              name col = "column1".
Proof.
  apply (columns_exactly_qualified insertion_order join_query
           [ ("a", Entry "table1" ["column1"; "common_column"]);
             ("b", Entry "table2" ["column2"; "common_column"]) ]
           "a" (Entry "table1" ["column1"; "common_column"])).
  - reflexivity.
  - reflexivity.
  - left. reflexivity.
Defined.

(** Which write decides [table_name]: an aliased subquery wins over
    everything; a CTE name used neither as a table qualifier nor as a
    subquery alias keeps "CTE"; and in all cases the value is "Subquery",
    "CTE", the name of a table node with that qualifier, or the key
    itself. *)
Theorem table_name_precedence (ord : SetOrder) (t : Expression) (r : dict)
  (q : string) (e : entry) :
  parse_query ord t = Return r ->
  getitem q r = Some e ->
  (In q (subquery_aliases t) -> table_name e = "Subquery") /\
  (In q (cte_names t) -> ~ In q (table_qualifiers t) ->
   ~ In q (subquery_aliases t) -> table_name e = "CTE") /\
  (table_name e = "Subquery" \/ table_name e = "CTE" \/
   (exists tbl, In tbl (find_all Table t) /\ qualifier tbl = q /\
                table_name e = name tbl) \/
   table_name e = q).
Proof.
  intros E Eq.
  destruct (result_entry_inv _ _ _ _ _ E Eq)
    as [k [e4 [_ [_ [_ [Htn ->]]]]]].
  unfold final_entry. cbn [table_name]. rewrite Htn. clear Htn.
  set (A := map (fun e => (alias e, "CTE")) (find_all CTE t)).
  set (B := map (fun e => (qualifier e, name e)) (find_all Table t)).
  set (C := map (fun e => (alias e, "Subquery"))
                (filter (fun e => truthy (alias e)) (find_all Subquery t))).
  assert (HA : map fst A = cte_names t).
  { unfold A, cte_names. now rewrite map_map. }
  assert (HB : map fst B = table_qualifiers t).
  { unfold B, table_qualifiers. now rewrite map_map. }
  assert (HC : map fst C = subquery_aliases t).
  { unfold C, subquery_aliases. rewrite map_map. simpl.
    induction (find_all Subquery t) as [|x l IH]; simpl; [reflexivity|].
    destruct (truthy (alias x)); simpl; now rewrite IH. }
  assert (HAn : forall n, last_registered q A = Some n -> n = "CTE").
  { intros n Hn. apply last_registered_In in Hn.
    apply in_map_iff in Hn as [x [[= _ <-] _]]. reflexivity. }
  assert (HCn : forall n, last_registered q C = Some n -> n = "Subquery").
  { intros n Hn. apply last_registered_In in Hn.
    apply in_map_iff in Hn as [x [[= _ <-] _]]. reflexivity. }
  unfold registrations. fold A B C.
  rewrite !last_registered_app. repeat split.
  - intros Hsub. rewrite <- HC in Hsub.
    apply last_registered_Some_iff in Hsub as [n Hn]. rewrite Hn.
    now apply HCn.
  - intros Hcte Htab Hsub. rewrite <- HA in Hcte.
    rewrite <- HB in Htab. rewrite <- HC in Hsub.
    rewrite (last_registered_None _ _ Hsub), (last_registered_None _ _ Htab).
    apply last_registered_Some_iff in Hcte as [n Hn]. rewrite Hn.
    now apply HAn.
  - destruct (last_registered q C) as [n|] eqn:EC.
    { left. now apply HCn. }
    destruct (last_registered q B) as [n|] eqn:EB.
    { right. right. left. apply last_registered_In in EB.
      apply in_map_iff in EB as [tbl [[= Hq <-] Hin]]. now exists tbl. }
    destruct (last_registered q A) as [n|] eqn:EA.
    { right. left. now apply HAn. }
    now right; right; right.
Qed.

Lemma table_name_precedence_witness :
  (In "x" (subquery_aliases aliased_cte_query) ->
   table_name (Entry "CTE" []) = "Subquery") /\
  (In "x" (cte_names aliased_cte_query) ->
   ~ In "x" (table_qualifiers aliased_cte_query) ->
   ~ In "x" (subquery_aliases aliased_cte_query) ->
   table_name (Entry "CTE" []) = "CTE") /\
  (table_name (Entry "CTE" []) = "Subquery" \/
   table_name (Entry "CTE" []) = "CTE" \/
   (exists tbl, In tbl (find_all Table aliased_cte_query) /\
                qualifier tbl = "x" /\
                table_name (Entry "CTE" []) = name tbl) \/
   table_name (Entry "CTE" []) = "x").
Proof.
  apply (table_name_precedence insertion_order aliased_cte_query
           [("x", Entry "CTE" []); ("y", Entry "x" ["a"])]); reflexivity.
Defined.

(** With [k] the last key of the returned dictionary, the condition of the
    fallback holds exactly when no column of the tree is qualified by [k]. *)
Theorem fallback_fires_iff (ord : SetOrder) (t : Expression) (r : dict)
  (k : string) :
  parse_query ord t = Return r ->
  last_key r = Some k ->
  (fallback_fires ord t = true <-> ~ In k (column_qualifiers t)).
Proof.
  intros E Hlast.
  apply result_entries in E as [k' [Hk [Hkeys _]]].
  rewrite (last_key_keys _ _ Hkeys), Hk in Hlast. injection Hlast as ->.
  rewrite fallback_fires_eq, Hk, <- map_fst_attributions,
    <- attributed_to_nil_iff.
  assert (Hin : getitem k (attributed t) <> None).
  { intros Hn. apply getitem_None_keys in Hn. apply Hn.
    destruct (last_key_Some _ _ Hk) as [ks ->]. apply in_or_app. right.
    now left. }
  unfold columns_of.
  destruct (getitem k (attributed t)) as [e4|] eqn:E4; [|contradiction].
  rewrite (columns_attributed _ _ _ E4), <- (sorted_set_nil_iff ord).
  destruct (sorted_set ord (attributed_to k (attributions t))); simpl.
  - tauto.
  - split; discriminate.
Qed.

Lemma fallback_fires_iff_witness :
  fallback_fires insertion_order union_query = true <->
  ~ In "table2" (column_qualifiers union_query).
Proof.
  apply (fallback_fires_iff insertion_order union_query union_result);
    reflexivity.
Defined.

(** No entry of the returned dictionary lists more columns than the tree
    has column nodes. *)
Theorem columns_length_bound (ord : SetOrder) (t : Expression) (r : dict)
  (q : string) (e : entry) :
  parse_query ord t = Return r ->
  getitem q r = Some e ->
  length (columns e) <= length (find_all Column t).
Proof.
  intros E Eq.
  destruct (result_entry_inv _ _ _ _ _ E Eq)
    as [k [e4 [_ [_ [Hcs [_ ->]]]]]].
  unfold final_entry. cbn [columns].
  destruct ((k =? q) && Nat.eqb (length (sorted_set ord (columns e4))) 0).
  - unfold all_columns. now rewrite length_map.
  - apply Nat.le_trans with (length (columns e4)).
    + apply NoDup_incl_length.
      * apply strict_NoDup, sorted_set_strict.
      * intros c Hc. now apply sorted_set_In in Hc.
    + rewrite Hcs. unfold attributed_to, attributions.
      rewrite length_map.
      eapply Nat.le_trans; [apply filter_length_le|].
      rewrite length_map. apply filter_length_le.
Qed.

Lemma columns_length_bound_witness :
  length (columns (Entry "table1" ["column1"; "common_column"])) <=
  length (find_all Column join_query).
Proof.
  apply (columns_length_bound insertion_order join_query
           [ ("a", Entry "table1" ["column1"; "common_column"]);
             ("b", Entry "table2" ["column2"; "common_column"]) ] "a");
    reflexivity.
Defined.

(** An entry of the returned dictionary has no columns exactly when no
    column of the tree is qualified by its key and, besides, either it is not
    the last entry or the tree has no column node at all. *)
Theorem empty_columns_iff (ord : SetOrder) (t : Expression) (r : dict)
  (q : string) (e : entry) :
  parse_query ord t = Return r ->
  getitem q r = Some e ->
  (columns e = [] <->
   ~ In q (column_qualifiers t) /\
   (last_key r <> Some q \/ find_all Column t = [])).
Proof.
  intros E Eq.
  destruct (result_entry_inv _ _ _ _ _ E Eq)
    as [k [e4 [Hk [_ [Hcs [_ ->]]]]]].
  rewrite Hk, <- map_fst_attributions, <- attributed_to_nil_iff, <- Hcs.
  unfold final_entry. cbn [columns].
  destruct (sorted_set ord (columns e4)) as [|c cs] eqn:Es.
  - apply sorted_set_nil_iff in Es. cbn [length Nat.eqb].
    rewrite andb_true_r.
    destruct (String.eqb_spec k q) as [->|Hne].
    + unfold all_columns. split.
      * intros Hnil. apply map_eq_nil in Hnil. split; [exact Es|now right].
      * intros [_ [Hl|Hc]]; [congruence | now rewrite Hc].
    + split; [|reflexivity]. intros _. split; [exact Es|].
      left. congruence.
  - cbn [length Nat.eqb]. rewrite andb_false_r. split; [discriminate|].
    intros [Hnil _]. apply (sorted_set_nil_iff ord) in Hnil. congruence.
Qed.

Lemma empty_columns_iff_witness :
  columns (Entry "table1" []) = [] <->
  ~ In "table1" (column_qualifiers union_query) /\
  (last_key union_result <> Some "table1" \/
   find_all Column union_query = []).
Proof.
  apply (empty_columns_iff insertion_order union_query union_result);
    reflexivity.
Defined.

(** Step 4 only appends keys: the keys of the returned dictionary are the
    keys registered by steps 1 to 3, in their order, followed by the column
    qualifiers that are not among them, in order of first occurrence. *)
Theorem unknown_keys_come_last (ord : SetOrder) (t : Expression) (r : dict) :
  parse_query ord t = Return r ->
  keys r =
  keys (registered t)
  ++ filter (fun q => negb (mem q (keys (registered t))))
            (first_seen (column_qualifiers t)).
Proof.
  intros E. apply result_entries in E as [k [_ [Hkeys _]]].
  now rewrite Hkeys, attributed_eq, keys_fold_attribute, fold_add_key,
    map_fst_attributions.
Qed.

Lemma unknown_keys_come_last_witness :
  keys [("t", Entry "t" []); ("o", Entry "o" ["col"])] =
  keys (registered unknown_query)
  ++ filter (fun q => negb (mem q (keys (registered unknown_query))))
            (first_seen (column_qualifiers unknown_query)).
Proof.
  apply (unknown_keys_come_last insertion_order unknown_query). reflexivity.
Defined.
